(** * receive_events.py: an Event Hub consumer, embedded and verified

    The script under [Samples/AzureIoT-TSL2561/receive_events.py] builds an
    [EventHubConsumerClient] from three inlined constants, enters it as an
    asynchronous context manager and hands the callback [on_event] to
    [client.receive].  The callback prints one line per event and then
    awaits [partition_context.update_checkpoint(event)].

    The embedding is a state-and-exception monad over a [World] that holds
    what the script can observe or change: the lines on standard output,
    the log of calls made to the outside (print, the client, the partition
    context), and the checkpoint store of the messaging service.  Whether
    an outside call raises is decided by an [Env] of oracles, so that every
    failure path the script can meet is covered by the quantifiers. *)

From Stdlib Require Import String Ascii List ZArith.
From stdpp Require Import base strings list gmap.

Open Scope string_scope.
Open Scope list_scope.

(* ===================================================================== *)
(** ** Data model *)

(** A raised Python exception, identified by its class name. *)
Inductive Exn : Type :=
  | PyExn (cls : string).

(** The event object handed to the callback.  The script uses two things
    of it: its identity (the very object is passed on to
    [update_checkpoint]) and what [str.format] renders for it. *)
Record Event : Type := mkEvent {
  event_id : N;
  event_str : string
}.

(** The partition context: the script reads [partition_id] and calls
    [update_checkpoint] on it. *)
Record PartitionContext : Type := mkPartitionContext {
  partition_id : string
}.

(** The client handle returned by
    [EventHubConsumerClient.from_connection_string]. *)
Record Client : Type := mkClient {
  conn_str : string;
  consumer_group : string;
  eventhub_name : string
}.

#[global] Instance Exn_eq_dec : EqDecision Exn.
Proof. solve_decision. Defined.
#[global] Instance Event_eq_dec : EqDecision Event.
Proof. solve_decision. Defined.
#[global] Instance PartitionContext_eq_dec : EqDecision PartitionContext.
Proof. solve_decision. Defined.
#[global] Instance Client_eq_dec : EqDecision Client.
Proof. solve_decision. Defined.

(** Calls the script makes to the outside, in the order it makes them. *)
Inductive Call : Type :=
  | CPrint (line : string)
  | CUpdateCheckpoint (pc : PartitionContext) (ev : Event)
  | CFromConnectionString (conn group hub : string)
  | CAenter (c : Client)
  | CReceive (c : Client)
  | CAexit (c : Client) (exc : option Exn).

#[global] Instance Call_eq_dec : EqDecision Call.
Proof. solve_decision. Defined.

(** What the process can see and change.  [argv], [environ] and [files]
    are the ambient inputs a script could consult for its configuration. *)
Record World : Type := mkWorld {
  stdout : list string;
  calls : list Call;
  checkpoints : gmap string Event;
  argv : list string;
  environ : gmap string string;
  files : gmap string string
}.

Definition with_stdout (w : World) (out : list string) : World :=
  {| stdout := out; calls := calls w; checkpoints := checkpoints w;
     argv := argv w; environ := environ w; files := files w |}.

Definition with_calls (w : World) (cs : list Call) : World :=
  {| stdout := stdout w; calls := cs; checkpoints := checkpoints w;
     argv := argv w; environ := environ w; files := files w |}.

Definition with_checkpoints (w : World) (ck : gmap string Event) : World :=
  {| stdout := stdout w; calls := calls w; checkpoints := ck;
     argv := argv w; environ := environ w; files := files w |}.

(* ===================================================================== *)
(** ** The effect monad *)

(** How a coroutine ends: it returns, it raises, or it stays suspended
    for ever on an await that never completes. *)
Inductive Outcome (A : Type) : Type :=
  | Ok (a : A)
  | Raise (e : Exn)
  | Pending.

Arguments Ok {A} a.
Arguments Raise {A} e.
Arguments Pending {A}.

Definition M (A : Type) : Type := World -> Outcome A * World.

#[global] Instance M_ret : MRet M := fun A a w => (Ok a, w).

#[global] Instance M_bind : MBind M := fun A B f m w =>
  match m w with
  | (Ok a, w1) => f a w1
  | (Raise e, w1) => (Raise e, w1)
  | (Pending, w1) => (Pending, w1)
  end.

Definition raise {A} (e : Exn) : M A := fun w => (Raise e, w).

Definition lift_outcome {A} (o : Outcome A) : M A := fun w => (o, w).

(** Record a call in the log. *)
Definition log (c : Call) : M unit :=
  fun w => (Ok tt, with_calls w (calls w ++ [c])).

(** The calls made between two worlds of one run. *)
Definition emitted (w w' : World) : list Call :=
  drop (length (calls w)) (calls w').

Definition prints_of (cs : list Call) : list string :=
  omap (fun c => match c with CPrint l => Some l | _ => None end) cs.

Definition checkpoints_of (cs : list Call) : list (PartitionContext * Event) :=
  omap (fun c => match c with CUpdateCheckpoint pc ev => Some (pc, ev) | _ => None end) cs.

(* ===================================================================== *)
(** ** [str.format] *)

Definition dquote : string := String "034"%char EmptyString.

(** [template.format(a1, ..., an)] for templates made of literal text, the
    automatic field [{}] and the escapes [{{] and [}}].  A lone brace is a
    [ValueError]; a field with no argument left is an [IndexError]; spare
    arguments are ignored. *)
Fixpoint py_format (template : string) (args : list string) : Outcome string :=
  match template with
  | EmptyString => Ok EmptyString
  | String c rest =>
      if Ascii.eqb c "{"%char then
        match rest with
        | String c' rest' =>
            if Ascii.eqb c' "}"%char then
              match args with
              | [] => Raise (PyExn "IndexError")
              | a :: args' =>
                  match py_format rest' args' with
                  | Ok s => Ok (a +:+ s)
                  | other => other
                  end
              end
            else if Ascii.eqb c' "{"%char then
              match py_format rest' args with
              | Ok s => Ok (String "{"%char s)
              | other => other
              end
            else Raise (PyExn "ValueError")
        | EmptyString => Raise (PyExn "ValueError")
        end
      else if Ascii.eqb c "}"%char then
        match rest with
        | String c' rest' =>
            if Ascii.eqb c' "}"%char then
              match py_format rest' args with
              | Ok s => Ok (String "}"%char s)
              | other => other
              end
            else Raise (PyExn "ValueError")
        | EmptyString => Raise (PyExn "ValueError")
        end
      else
        match py_format rest args with
        | Ok s => Ok (String c s)
        | other => other
        end
  end.

(** The literal of line 6; its four escaped quotes are [dquote]. *)
Definition EVENT_TEMPLATE : string :=
  "Received the event: " +:+ dquote +:+ "{}" +:+ dquote +:+
  " from the partition with ID: " +:+ dquote +:+ "{}" +:+ dquote.

(** The line as the specification words it:
    [Received the event: "<event>" from the partition with ID: "<partition_id>"]. *)
Definition spec_line (event_repr pid : string) : string :=
  "Received the event: " +:+ dquote +:+ event_repr +:+ dquote +:+
  " from the partition with ID: " +:+ dquote +:+ pid +:+ dquote.

(* ===================================================================== *)
(** ** The outside: oracles for the calls the script makes *)

(** How the event stream of the client ends after its deliveries: the
    receive loop returns, it raises, or it waits for ever. *)
Inductive StreamEnd : Type :=
  | StreamClosed
  | StreamFails (e : Exn)
  | StreamIdle.

Record Stream : Type := mkStream {
  deliveries : list (PartitionContext * Event);
  stream_end : StreamEnd
}.

(** The environment of one run.  Each oracle says, for the world at the
    moment of the call, whether that call raises. *)
Record Env : Type := mkEnv {
  print_raises : World -> string -> option Exn;
  update_checkpoint_raises : World -> PartitionContext -> Event -> option Exn;
  from_connection_string_raises : World -> option Exn;
  aenter_raises : World -> option Exn;
  close_raises : World -> option Exn;
  stream : Stream;
  handler_errors_fatal : bool
}.

Section Script.

Context (env : Env).

(** [print(line)]: one line on standard output, unless the write fails. *)
Definition print (line : string) : M unit := fun w =>
  let w1 := with_calls w (calls w ++ [CPrint line]) in
  match print_raises env w line with
  | Some e => (Raise e, w1)
  | None => (Ok tt, with_stdout w1 (stdout w1 ++ [line]))
  end.

(** [await partition_context.update_checkpoint(event)]: the service
    records [event] as the position of the partition, unless the call
    fails. *)
Definition update_checkpoint (pc : PartitionContext) (ev : Event) : M unit := fun w =>
  let w1 := with_calls w (calls w ++ [CUpdateCheckpoint pc ev]) in
  match update_checkpoint_raises env w pc ev with
  | Some e => (Raise e, w1)
  | None => (Ok tt, with_checkpoints w1 (<[partition_id pc := ev]> (checkpoints w1)))
  end.

(** [EventHubConsumerClient.from_connection_string(conn, consumer_group=g,
    eventhub_name=h)]. *)
Definition from_connection_string (conn group hub : string) : M Client := fun w =>
  let w1 := with_calls w (calls w ++ [CFromConnectionString conn group hub]) in
  match from_connection_string_raises env w with
  | Some e => (Raise e, w1)
  | None => (Ok (mkClient conn group hub), w1)
  end.

(** [await client.__aenter__()]. *)
Definition client_aenter (c : Client) : M unit := fun w =>
  let w1 := with_calls w (calls w ++ [CAenter c]) in
  match aenter_raises env w with
  | Some e => (Raise e, w1)
  | None => (Ok tt, w1)
  end.

(** [await client.__aexit__(exc)]: the client closes itself and returns
    [None], which is falsy: it never swallows the exception of the body. *)
Definition client_aexit (c : Client) (exc : option Exn) : M bool := fun w =>
  let w1 := with_calls w (calls w ++ [CAexit c exc]) in
  match close_raises env w with
  | Some e => (Raise e, w1)
  | None => (Ok false, w1)
  end.

(** The statement [async with mgr: body].  [__aexit__] runs when the body
    returns and when it raises; a truthy result swallows the exception, an
    exception raised by [__aexit__] itself replaces it.  A body that never
    completes never reaches [__aexit__]. *)
Definition async_with (aenter : M unit) (aexit : option Exn -> M bool)
    (body : M unit) : M unit := fun w =>
  match aenter w with
  | (Ok _, w1) =>
      match body w1 with
      | (Ok _, w2) =>
          match aexit None w2 with
          | (Ok _, w3) => (Ok tt, w3)
          | (Raise e', w3) => (Raise e', w3)
          | (Pending, w3) => (Pending, w3)
          end
      | (Raise e, w2) =>
          match aexit (Some e) w2 with
          | (Ok suppress, w3) => if suppress : bool then (Ok tt, w3) else (Raise e, w3)
          | (Raise e', w3) => (Raise e', w3)
          | (Pending, w3) => (Pending, w3)
          end
      | (Pending, w2) => (Pending, w2)
      end
  | (Raise e, w1) => (Raise e, w1)
  | (Pending, w1) => (Pending, w1)
  end.

(** Modelled from the spec: the receive loop belongs to the client library
    and is not part of the script.  It hands the deliveries of the stream
    to the callback one at a time, awaiting each invocation before the
    next.  When the callback raises, a client for which handler errors are
    fatal stops and lets the exception out; a lenient one goes on with the
    next delivery. *)
Fixpoint deliver_all (handler : PartitionContext -> Event -> M unit)
    (ds : list (PartitionContext * Event)) : M unit :=
  match ds with
  | [] => mret tt
  | (pc, ev) :: rest => fun w =>
      match handler pc ev w with
      | (Ok _, w1) => deliver_all handler rest w1
      | (Raise e, w1) =>
          if handler_errors_fatal env then (Raise e, w1)
          else deliver_all handler rest w1
      | (Pending, w1) => (Pending, w1)
      end
  end.

(** Modelled from the spec: [await client.receive(on_event=handler)] runs
    the loop over the deliveries and then ends as the stream ends. *)
Definition receive (c : Client) (handler : PartitionContext -> Event -> M unit) : M unit :=
  log (CReceive c);;
  deliver_all handler (deliveries (stream env));;
  match stream_end (stream env) with
  | StreamClosed => mret tt
  | StreamFails e => raise e
  | StreamIdle => lift_outcome Pending
  end.

(* --------------------------------------------------------------------- *)
(** *** The script itself *)

(** Lines 4 to 10. *)
Definition on_event (partition_context : PartitionContext) (event : Event) : M unit :=
  line ← lift_outcome
    (py_format EVENT_TEMPLATE [event_str event; partition_id partition_context]);
  print line;;
  update_checkpoint partition_context event.

Definition CONNECTION_STRING : string :=
  "Endpoint=sb://hslu-sphere-eventhub.servicebus.windows.net/;SharedAccessKeyName=subscriberapp;SharedAccessKey=Ga5/QiNJxbRWigXRE3INyVt5NH2VbUBeYMCI0iOrmQU=".

(** Lines 12 to 17. *)
Definition main : M unit :=
  client ← from_connection_string CONNECTION_STRING "$Default" "spherelight";
  async_with (client_aenter client) (client_aexit client)
    (receive client on_event).

(** [loop.run_until_complete(coro)] hands back what the coroutine returns
    and lets out what it raises. *)
Definition run_until_complete {A} (coro : M A) : M A := coro.

(** Exit status of the interpreter: 0 when the script runs to its end, 1
    when an exception reaches the top level, none while it never ends. *)
Definition exit_status {A} (o : Outcome A) : option Z :=
  match o with
  | Ok _ => Some 0%Z
  | Raise _ => Some 1%Z
  | Pending => None
  end.

(** Lines 19 to 22, the script run as [__main__]: the event loop is
    fetched and runs [main]. *)
Definition script_main (w : World) : option Z * World :=
  let (o, w') := run_until_complete main w in (exit_status o, w').

End Script.

(* ===================================================================== *)
(** ** Derived definitions *)

(** The line [on_event] builds for a delivery. *)
Definition event_line (pc : PartitionContext) (ev : Event) : string :=
  spec_line (event_str ev) (partition_id pc).

(** The world after the print call of [on_event] was made and failed. *)
Definition after_print_call (w : World) (pc : PartitionContext) (ev : Event) : World :=
  with_calls w (calls w ++ [CPrint (event_line pc ev)]).

(** The world after the print of [on_event] completed. *)
Definition after_print (w : World) (pc : PartitionContext) (ev : Event) : World :=
  with_stdout (after_print_call w pc ev) (stdout w ++ [event_line pc ev]).

Definition after_checkpoint_call (w : World) (pc : PartitionContext) (ev : Event) : World :=
  with_calls (after_print w pc ev)
    (calls w ++ [CPrint (event_line pc ev); CUpdateCheckpoint pc ev]).

Definition after_checkpoint (w : World) (pc : PartitionContext) (ev : Event) : World :=
  with_checkpoints (after_checkpoint_call w pc ev)
    (<[partition_id pc := ev]> (checkpoints w)).

(** The client [main] builds. *)
Definition the_client : Client :=
  mkClient CONNECTION_STRING "$Default" "spherelight".

(** The world once the client is built and entered. *)
Definition acquired (w : World) : World :=
  with_calls w (calls w ++
    [CFromConnectionString CONNECTION_STRING "$Default" "spherelight";
     CAenter the_client]).

(** Calls made by the callback, as opposed to calls on the client. *)
Definition is_handler_call (c : Call) : bool :=
  match c with
  | CPrint _ | CUpdateCheckpoint _ _ => true
  | _ => false
  end.

Definition constructions_of (cs : list Call) : list (string * string * string) :=
  omap (fun c => match c with
                 | CFromConnectionString conn g h => Some (conn, g, h)
                 | _ => None
                 end) cs.

(** The client a call is made on, for the calls that are made on one. *)
Definition client_of (c : Call) : option Client :=
  match c with
  | CAenter c | CReceive c | CAexit c _ => Some c
  | _ => None
  end.

(** The world in which the receive loop starts delivering. *)
Definition receiving (w : World) : World :=
  with_calls (acquired w) (calls (acquired w) ++ [CReceive the_client]).

(** Every invocation of the callback over the deliveries [ds], started in
    [w] and run one after the other, completes without raising. *)
Fixpoint handlers_succeed (env : Env) (ds : list (PartitionContext * Event))
    (w : World) : bool :=
  match ds with
  | [] => true
  | (pc, ev) :: rest =>
      match on_event env pc ev w with
      | (Ok _, w1) => handlers_succeed env rest w1
      | _ => false
      end
  end.

Definition lines_of (ds : list (PartitionContext * Event)) : list string :=
  map (fun d => event_line d.1 d.2) ds.

Definition calls_of (ds : list (PartitionContext * Event)) : list Call :=
  flat_map (fun d => [CPrint (event_line d.1 d.2); CUpdateCheckpoint d.1 d.2]) ds.

(** The ambient inputs of the process are the same in both worlds. *)
Definition same_ambient (w w' : World) : Prop :=
  argv w' = argv w /\ environ w' = environ w /\ files w' = files w.

(** From [w] to [w'] only the callback made calls, and the ambient inputs
    were left alone. *)
Definition handler_step (w w' : World) : Prop :=
  exists mid : list Call,
    calls w' = calls w ++ mid /\
    Forall (fun c => is_handler_call c = true) mid /\
    same_ambient w w'.

(** The world after [__aexit__] was called with [exc]. *)
Definition after_aexit (w : World) (exc : option Exn) : World :=
  with_calls w (calls w ++ [CAexit the_client exc]).

(** What [__aexit__] is told about the way the body ended. *)
Definition exc_of {A} (o : Outcome A) : option Exn :=
  match o with
  | Raise e => Some e
  | _ => None
  end.

(* --------------------------------------------------------------------- *)
(** *** Concrete runs *)

Definition world0 : World := mkWorld [] [] ∅ [] ∅ ∅.

Definition pc_zero : PartitionContext := mkPartitionContext "0".

Definition E1 : Event := mkEvent 1 "first reading".
Definition E2 : Event := mkEvent 2 "second reading".
Definition E3 : Event := mkEvent 3 "third reading".

(** The same text delivered as another event. *)
Definition E1_again : Event := mkEvent 4 "first reading".

(** An environment in which no call fails. *)
Definition quiet_env (s : Stream) : Env :=
  mkEnv (fun _ _ => None) (fun _ _ _ => None) (fun _ => None) (fun _ => None)
        (fun _ => None) s true.

(** Standard output is closed: every print raises. *)
Definition broken_stdout_env (s : Stream) : Env :=
  mkEnv (fun _ _ => Some (PyExn "BrokenPipeError")) (fun _ _ _ => None)
        (fun _ => None) (fun _ => None) (fun _ => None) s true.

Definition no_stream : Stream := mkStream [] StreamClosed.

Definition three_events : Stream :=
  mkStream [(pc_zero, E1); (pc_zero, E2); (pc_zero, E3)] StreamClosed.

Definition refused_stream : Stream :=
  mkStream [] (StreamFails (PyExn "ConnectionError")).

(* --------------------------------------------------------------------- *)
(** *** Traces of the callback *)

(** How one invocation of the callback went: the print raised, the
    checkpoint call raised, or both returned. *)
Inductive Step : Type :=
  | PrintFailed
  | CheckpointFailed
  | Completed.

(** The calls of one invocation for the delivery [s.1] that went as [s.2]. *)
Definition step_calls (s : PartitionContext * Event * Step) : list Call :=
  match s.2 with
  | PrintFailed => [CPrint (event_line s.1.1 s.1.2)]
  | CheckpointFailed | Completed =>
      [CPrint (event_line s.1.1 s.1.2); CUpdateCheckpoint s.1.1 s.1.2]
  end.

(** The lines it left on standard output. *)
Definition step_lines (s : PartitionContext * Event * Step) : list string :=
  match s.2 with
  | PrintFailed => []
  | CheckpointFailed | Completed => [event_line s.1.1 s.1.2]
  end.

(** A log of calls in which every checkpoint call comes right after the
    print call for the same delivery. *)
Inductive print_then_checkpoint : list Call -> Prop :=
  | ptc_nil : print_then_checkpoint []
  | ptc_other (c : Call) (cs : list Call) :
      (forall pc ev, c <> CUpdateCheckpoint pc ev) ->
      print_then_checkpoint cs ->
      print_then_checkpoint (c :: cs)
  | ptc_pair (pc : PartitionContext) (ev : Event) (cs : list Call) :
      print_then_checkpoint cs ->
      print_then_checkpoint
        (CPrint (event_line pc ev) :: CUpdateCheckpoint pc ev :: cs).


Definition receive_calls_of (cs : list Call) : list Client :=
  omap (fun c => match c with CReceive c => Some c | _ => None end) cs.

Definition aexit_calls_of (cs : list Call) : list (Client * option Exn) :=
  omap (fun c => match c with CAexit c exc => Some (c, exc) | _ => None end) cs.

(** The checkpoint store after the deliveries [ds] were all checkpointed,
    one after the other. *)
Definition store_after (ds : list (PartitionContext * Event))
    (ck : gmap string Event) : gmap string Event :=
  foldl (fun m d => <[partition_id d.1 := d.2]> m) ck ds.

(** The last event among [ds] that was delivered on partition [pid]. *)
Definition last_delivered (pid : string)
    (ds : list (PartitionContext * Event)) : option Event :=
  last (omap (fun d => if decide (partition_id d.1 = pid) then Some d.2 else None) ds).

(** The text between the two fields of the template. *)
Definition FIELD_SEPARATOR : string :=
  dquote +:+ " from the partition with ID: " +:+ dquote.

(* --------------------------------------------------------------------- *)
(** *** More concrete runs *)


(** The client cannot be built. *)
Definition failing_construction_env (s : Stream) : Env :=
  mkEnv (fun _ _ => None) (fun _ _ _ => None) (fun _ => Some (PyExn "ValueError"))
        (fun _ => None) (fun _ => None) s true.

(** The client cannot be entered. *)
Definition failing_aenter_env (s : Stream) : Env :=
  mkEnv (fun _ _ => None) (fun _ _ _ => None) (fun _ => None)
        (fun _ => Some (PyExn "ConnectError")) (fun _ => None) s true.

(** Closing the client raises. *)
Definition failing_close_env (s : Stream) : Env :=
  mkEnv (fun _ _ => None) (fun _ _ _ => None) (fun _ => None) (fun _ => None)
        (fun _ => Some (PyExn "CloseError")) s true.

Definition pc_one : PartitionContext := mkPartitionContext "1".

(** Deliveries on two partitions, interleaved. *)
Definition two_partitions : Stream :=
  mkStream [(pc_zero, E1); (pc_one, E2); (pc_zero, E3)] StreamClosed.

(* ===================================================================== *)
(** ** Basic facts *)

Lemma emitted_app (w w' : World) (cs : list Call) :
  calls w' = calls w ++ cs -> emitted w w' = cs.
Proof.
  intros H. unfold emitted. rewrite H. apply drop_app_length.
Qed.

(** Formatting the template of line 6 never fails and yields the line of
    the specification. *)
Lemma format_event_line (a b : string) :
  py_format EVENT_TEMPLATE [a; b] = Ok (spec_line a b).
Proof. reflexivity. Qed.

(** [py_format] on the other shapes a template can have. *)
Example py_format_escapes :
  py_format "x{{}}y{}" ["a"; "b"] = Ok "x{}ya".
Proof. reflexivity. Qed.

Example py_format_missing_argument :
  py_format "{}{}{}" ["a"; "b"] = Raise (PyExn "IndexError").
Proof. reflexivity. Qed.

Example py_format_lone_brace :
  py_format "x{y" ["a"; "b"] = Raise (PyExn "ValueError").
Proof. reflexivity. Qed.

(** Braces inside an argument are text: they are not scanned again. *)
Example py_format_braces_in_event :
  py_format EVENT_TEMPLATE ["{}"; "0"] = Ok (spec_line "{}" "0").
Proof. reflexivity. Qed.

(** [on_event] unfolded once and for all: the three ways it can end. *)
Lemma on_event_run (env : Env) (pc : PartitionContext) (ev : Event) (w : World) :
  on_event env pc ev w =
    match print_raises env w (event_line pc ev) with
    | Some e => (Raise e, after_print_call w pc ev)
    | None =>
        match update_checkpoint_raises env (after_print w pc ev) pc ev with
        | Some e => (Raise e, after_checkpoint_call w pc ev)
        | None => (Ok tt, after_checkpoint w pc ev)
        end
    end.
Proof.
  unfold on_event, mbind, M_bind, lift_outcome.
  rewrite format_event_line.
  unfold print. fold (event_line pc ev).
  destruct (print_raises env w (event_line pc ev)) as [e|]; [reflexivity|].
  unfold update_checkpoint. fold (after_print_call w pc ev).
  change (with_stdout (after_print_call w pc ev)
            (stdout (after_print_call w pc ev) ++ [event_line pc ev]))
    with (after_print w pc ev).
  destruct (update_checkpoint_raises env (after_print w pc ev) pc ev) as [e|].
  - unfold after_checkpoint_call. simpl. rewrite <- app_assoc. reflexivity.
  - unfold after_checkpoint, after_checkpoint_call. simpl.
    rewrite <- app_assoc. reflexivity.
Qed.

(** The calls of one invocation of [on_event], whatever its outcome: the
    print call, then at most the checkpoint call for the delivered event. *)
Lemma on_event_emitted (env : Env) (pc : PartitionContext) (ev : Event) (w : World) :
  emitted w (on_event env pc ev w).2 =
    CPrint (event_line pc ev) ::
    match print_raises env w (event_line pc ev) with
    | Some _ => []
    | None => [CUpdateCheckpoint pc ev]
    end.
Proof.
  rewrite on_event_run.
  destruct (print_raises env w (event_line pc ev)) as [e|].
  - apply emitted_app. reflexivity.
  - destruct (update_checkpoint_raises env (after_print w pc ev) pc ev);
      apply emitted_app; reflexivity.
Qed.

(** A completed invocation made the print call and then the checkpoint
    call, and nothing else. *)
Lemma on_event_ok_emitted (env : Env) (pc : PartitionContext) (ev : Event)
    (w w' : World) :
  on_event env pc ev w = (Ok tt, w') ->
  emitted w w' = [CPrint (event_line pc ev); CUpdateCheckpoint pc ev].
Proof.
  intros Hrun. pose proof (on_event_emitted env pc ev w) as Hem.
  rewrite Hrun in Hem. simpl in Hem. rewrite Hem.
  rewrite on_event_run in Hrun.
  destruct (print_raises env w (event_line pc ev)); [discriminate | reflexivity].
Qed.

(** A checkpoint call of an invocation is for its own context and event. *)
Lemma on_event_checkpoint_own (env : Env) (pc : PartitionContext) (ev : Event)
    (w : World) (c : PartitionContext * Event) :
  c ∈ checkpoints_of (emitted w (on_event env pc ev w).2) -> c = (pc, ev).
Proof.
  rewrite on_event_emitted.
  destruct (print_raises env w (event_line pc ev)); simpl; intros Hin.
  - apply elem_of_nil in Hin. contradiction.
  - apply list_elem_of_singleton in Hin. exact Hin.
Qed.

(** A completed invocation ends in the world where the line is printed
    and the checkpoint is stored. *)
Lemma on_event_ok_world (env : Env) (pc : PartitionContext) (ev : Event)
    (w w' : World) :
  on_event env pc ev w = (Ok tt, w') -> w' = after_checkpoint w pc ev.
Proof.
  rewrite on_event_run.
  destruct (print_raises env w (event_line pc ev)); [discriminate|].
  destruct (update_checkpoint_raises env (after_print w pc ev) pc ev);
    [discriminate|].
  intros Hrun. injection Hrun as <-. reflexivity.
Qed.

Lemma handler_step_refl (w : World) : handler_step w w.
Proof.
  exists []. rewrite app_nil_r. repeat split. constructor.
Qed.

Lemma handler_step_trans (w1 w2 w3 : World) :
  handler_step w1 w2 -> handler_step w2 w3 -> handler_step w1 w3.
Proof.
  intros (m1 & Hc1 & Hf1 & Ha1 & He1 & Hfi1) (m2 & Hc2 & Hf2 & Ha2 & He2 & Hfi2).
  exists (m1 ++ m2). split; [|split].
  - rewrite Hc2, Hc1, app_assoc. reflexivity.
  - apply Forall_app. split; assumption.
  - repeat split; congruence.
Qed.

Lemma on_event_handler_step (env : Env) (pc : PartitionContext) (ev : Event)
    (w : World) :
  handler_step w (on_event env pc ev w).2.
Proof.
  rewrite on_event_run.
  destruct (print_raises env w (event_line pc ev)).
  - exists [CPrint (event_line pc ev)]. repeat split. repeat constructor.
  - destruct (update_checkpoint_raises env (after_print w pc ev) pc ev);
      exists [CPrint (event_line pc ev); CUpdateCheckpoint pc ev];
      repeat split; repeat constructor.
Qed.

Section ReceiveLoop.

Context (env : Env).

(** Whatever the callback meets, the loop only adds callback calls. *)
Lemma deliver_all_handler_step (ds : list (PartitionContext * Event)) :
  forall w : World, handler_step w (deliver_all env (on_event env) ds w).2.
Proof.
  induction ds as [|[pc ev] rest IH]; intros w.
  - apply handler_step_refl.
  - simpl. pose proof (on_event_handler_step env pc ev w) as Hstep.
    destruct (on_event env pc ev w) as [[[]|e|] w1]; simpl in Hstep.
    + eapply handler_step_trans; [exact Hstep | apply IH].
    + destruct (handler_errors_fatal env).
      * exact Hstep.
      * eapply handler_step_trans; [exact Hstep | apply IH].
    + exact Hstep.
Qed.

(** When every invocation completes, the loop completes, and the lines
    and the calls follow the order of the deliveries. *)
Lemma deliver_all_succeed (ds : list (PartitionContext * Event)) :
  forall w : World,
    handlers_succeed env ds w = true ->
    exists w' : World,
      deliver_all env (on_event env) ds w = (Ok tt, w') /\
      stdout w' = stdout w ++ lines_of ds /\
      calls w' = calls w ++ calls_of ds.
Proof.
  induction ds as [|[pc ev] rest IH]; intros w Hok.
  - exists w. simpl. rewrite !app_nil_r. auto.
  - simpl in Hok |- *.
    destruct (on_event env pc ev w) as [[[]|e|] w1] eqn:Hrun; try discriminate.
    destruct (IH w1 Hok) as (w' & Hloop & Hout & Hcalls).
    exists w'. split; [exact Hloop|].
    apply on_event_ok_world in Hrun. subst w1.
    rewrite Hout, Hcalls. simpl. rewrite <- !app_assoc. auto.
Qed.

(** [receive] unfolded: the call is logged, the loop runs, and the end of
    the stream decides how [receive] ends. *)
Lemma receive_run (c : Client) (w : World) :
  receive env c (on_event env) w =
    match deliver_all env (on_event env) (deliveries (stream env))
            (with_calls w (calls w ++ [CReceive c])) with
    | (Ok _, w1) =>
        match stream_end (stream env) with
        | StreamClosed => (Ok tt, w1)
        | StreamFails e => (Raise e, w1)
        | StreamIdle => (Pending, w1)
        end
    | (Raise e, w1) => (Raise e, w1)
    | (Pending, w1) => (Pending, w1)
    end.
Proof.
  unfold receive, mbind, M_bind, log, raise, lift_outcome, mret, M_ret.
  destruct (deliver_all env (on_event env) (deliveries (stream env))
              (with_calls w (calls w ++ [CReceive c]))) as [[[]|e|] w1];
    try reflexivity.
  destruct (stream_end (stream env)); reflexivity.
Qed.

(** [main] unfolded once the client is built and entered: the body is
    [receive], and [__aexit__] follows when [receive] returns or raises. *)
Lemma main_run (w : World) :
  from_connection_string_raises env w = None ->
  aenter_raises env
    (with_calls w (calls w ++
       [CFromConnectionString CONNECTION_STRING "$Default" "spherelight"])) = None ->
  main env w =
    match receive env the_client (on_event env) (acquired w) with
    | (Pending, w2) => (Pending, w2)
    | (o, w2) =>
        match close_raises env w2 with
        | Some e' => (Raise e', after_aexit w2 (exc_of o))
        | None => (o, after_aexit w2 (exc_of o))
        end
    end.
Proof.
  intros Hnew Henter.
  unfold main, mbind, M_bind, from_connection_string. rewrite Hnew.
  unfold async_with, client_aenter. simpl calls. rewrite Henter.
  fold the_client.
  replace (with_calls
             (with_calls w (calls w ++
                [CFromConnectionString CONNECTION_STRING "$Default" "spherelight"]))
             ((calls w ++
                [CFromConnectionString CONNECTION_STRING "$Default" "spherelight"])
              ++ [CAenter the_client]))
    with (acquired w)
    by (unfold acquired, with_calls; simpl; rewrite <- app_assoc; reflexivity).
  destruct (receive env the_client (on_event env) (acquired w)) as [[[]|e|] w2];
    unfold client_aexit, after_aexit; simpl;
    try destruct (close_raises env w2); reflexivity.
Qed.

End ReceiveLoop.

(* ===================================================================== *)
(** ** The callback [on_event] *)

(** C1: every invocation of [on_event] makes exactly one print call, and
    its argument is the template
    [Received the event: "<event>" from the partition with ID: "<partition_id>"]
    filled with the string of the event and the partition id of the
    context; when the write does not fail, standard output grows by
    exactly that one line. *)
Theorem on_event_prints_template_line
    (env : Env) (pc : PartitionContext) (ev : Event) (w : World) :
  prints_of (emitted w (on_event env pc ev w).2)
    = [spec_line (event_str ev) (partition_id pc)] /\
  (print_raises env w (spec_line (event_str ev) (partition_id pc)) = None ->
   stdout (on_event env pc ev w).2
     = stdout w ++ [spec_line (event_str ev) (partition_id pc)]).
Proof.
  split.
  - rewrite on_event_emitted.
    destruct (print_raises env w (event_line pc ev)); reflexivity.
  - intros Hprint. rewrite on_event_run. unfold event_line. rewrite Hprint.
    destruct (update_checkpoint_raises env (after_print w pc ev) pc ev);
      reflexivity.
Qed.

Lemma on_event_prints_template_line_witness :
  prints_of (emitted world0 (on_event (quiet_env no_stream) pc_zero E1 world0).2)
    = [spec_line "first reading" "0"] /\
  stdout (on_event (quiet_env no_stream) pc_zero E1 world0).2
    = [spec_line "first reading" "0"].
Proof.
  destruct (on_event_prints_template_line (quiet_env no_stream) pc_zero E1 world0)
    as [Hcalls Hout].
  split; [exact Hcalls | apply Hout; reflexivity].
Defined.

(** C2: when an invocation of [on_event] completes, it is a completed
    print followed by the checkpoint call: no checkpoint call is made
    before the line is on standard output, and the invocation makes
    exactly one checkpoint call, for the delivered event. *)
Theorem on_event_checkpoint_once_after_print
    (env : Env) (pc : PartitionContext) (ev : Event) (w w' : World) :
  on_event env pc ev w = (Ok tt, w') ->
  exists w1 : World,
    print env (event_line pc ev) w = (Ok tt, w1) /\
    stdout w1 = stdout w ++ [event_line pc ev] /\
    checkpoints_of (emitted w w1) = [] /\
    update_checkpoint env pc ev w1 = (Ok tt, w') /\
    emitted w w' = [CPrint (event_line pc ev); CUpdateCheckpoint pc ev] /\
    checkpoints_of (emitted w w') = [(pc, ev)].
Proof.
  rewrite on_event_run. intros Hrun.
  destruct (print_raises env w (event_line pc ev)) as [e|] eqn:Hprint;
    [discriminate|].
  destruct (update_checkpoint_raises env (after_print w pc ev) pc ev)
    as [e|] eqn:Hck; [discriminate|].
  injection Hrun as <-.
  exists (after_print w pc ev).
  assert (Hem : emitted w (after_checkpoint w pc ev)
                = [CPrint (event_line pc ev); CUpdateCheckpoint pc ev])
    by (apply emitted_app; reflexivity).
  repeat split.
  - unfold print. rewrite Hprint. reflexivity.
  - assert (Hp : emitted w (after_print w pc ev) = [CPrint (event_line pc ev)])
      by (apply emitted_app; reflexivity).
    rewrite Hp. reflexivity.
  - unfold update_checkpoint. rewrite Hck.
    unfold after_checkpoint, after_checkpoint_call. simpl.
    rewrite <- app_assoc. reflexivity.
  - exact Hem.
  - rewrite Hem. reflexivity.
Qed.

Lemma on_event_checkpoint_once_after_print_witness :
  exists w1 : World,
    print (quiet_env no_stream) (event_line pc_zero E1) world0 = (Ok tt, w1) /\
    stdout w1 = stdout world0 ++ [event_line pc_zero E1] /\
    checkpoints_of (emitted world0 w1) = [] /\
    update_checkpoint (quiet_env no_stream) pc_zero E1 w1
      = (Ok tt, after_checkpoint world0 pc_zero E1) /\
    emitted world0 (after_checkpoint world0 pc_zero E1)
      = [CPrint (event_line pc_zero E1); CUpdateCheckpoint pc_zero E1] /\
    checkpoints_of (emitted world0 (after_checkpoint world0 pc_zero E1))
      = [(pc_zero, E1)].
Proof.
  apply (on_event_checkpoint_once_after_print (quiet_env no_stream) pc_zero E1
           world0 (after_checkpoint world0 pc_zero E1)).
  reflexivity.
Defined.

(** C3: when the print of [on_event] raises, the same exception comes out
    of [on_event], no checkpoint call is made for the event, and the
    checkpoint store is left as it was. *)
Theorem on_event_failure_before_checkpoint
    (env : Env) (pc : PartitionContext) (ev : Event) (w : World) (e : Exn) :
  print_raises env w (event_line pc ev) = Some e ->
  (on_event env pc ev w).1 = Raise e /\
  checkpoints_of (emitted w (on_event env pc ev w).2) = [] /\
  checkpoints (on_event env pc ev w).2 = checkpoints w.
Proof.
  intros Hprint. rewrite on_event_emitted, on_event_run, Hprint.
  repeat split.
Qed.

Lemma on_event_failure_before_checkpoint_witness :
  (on_event (broken_stdout_env no_stream) pc_zero E1 world0).1
    = Raise (PyExn "BrokenPipeError") /\
  checkpoints_of
    (emitted world0 (on_event (broken_stdout_env no_stream) pc_zero E1 world0).2) = [] /\
  checkpoints (on_event (broken_stdout_env no_stream) pc_zero E1 world0).2
    = checkpoints world0.
Proof.
  apply (on_event_failure_before_checkpoint (broken_stdout_env no_stream)
           pc_zero E1 world0 (PyExn "BrokenPipeError")).
  reflexivity.
Defined.

(** C9: every checkpoint call an invocation of [on_event] makes is on the
    partition context it was given and carries the event it was given;
    when the invocation completes, the store holds that event as the
    position of that partition and nothing else has changed in it. *)
Theorem on_event_checkpoints_delivered_event
    (env : Env) (pc : PartitionContext) (ev : Event) (w : World) :
  (forall (pc' : PartitionContext) (ev' : Event),
     (pc', ev') ∈ checkpoints_of (emitted w (on_event env pc ev w).2) ->
     pc' = pc /\ ev' = ev) /\
  (forall w' : World,
     on_event env pc ev w = (Ok tt, w') ->
     checkpoints w' = <[partition_id pc := ev]> (checkpoints w)).
Proof.
  split.
  - intros pc' ev' Hin. apply on_event_checkpoint_own in Hin.
    injection Hin as -> ->. auto.
  - intros w'. rewrite on_event_run.
    destruct (print_raises env w (event_line pc ev)); [discriminate|].
    destruct (update_checkpoint_raises env (after_print w pc ev) pc ev);
      [discriminate|].
    intros Hrun. injection Hrun as <-. reflexivity.
Qed.

Lemma on_event_checkpoints_delivered_event_witness :
  (pc_zero, E1)
    ∈ checkpoints_of (emitted world0 (on_event (quiet_env no_stream) pc_zero E1 world0).2) /\
  (pc_zero = pc_zero /\ E1 = E1) /\
  checkpoints (after_checkpoint world0 pc_zero E1) !! "0" = Some E1.
Proof.
  assert (Hin : (pc_zero, E1)
      ∈ checkpoints_of
          (emitted world0 (on_event (quiet_env no_stream) pc_zero E1 world0).2)).
  { rewrite on_event_emitted. simpl. apply list_elem_of_singleton. reflexivity. }
  destruct (on_event_checkpoints_delivered_event (quiet_env no_stream)
              pc_zero E1 world0) as [Harg Hstore].
  split; [exact Hin|]. split; [exact (Harg pc_zero E1 Hin)|].
  rewrite (Hstore (after_checkpoint world0 pc_zero E1)); [|reflexivity].
  apply lookup_insert_eq.
Defined.

(** C10, as stated, fails: two events with the same text are still two
    events, and each invocation passes its own one to the checkpoint. *)
Lemma on_event_same_text_distinct_events :
  ~ (event_str E1 = event_str E1_again ->
     partition_id pc_zero = partition_id pc_zero ->
     prints_of (emitted world0 (on_event (quiet_env no_stream) pc_zero E1 world0).2)
       = prints_of
           (emitted world0 (on_event (quiet_env no_stream) pc_zero E1_again world0).2) /\
     checkpoints_of (emitted world0 (on_event (quiet_env no_stream) pc_zero E1 world0).2)
       = checkpoints_of
           (emitted world0 (on_event (quiet_env no_stream) pc_zero E1_again world0).2)).
Proof.
  intros H. destruct H as [_ Hck]; [reflexivity | reflexivity |].
  rewrite !on_event_emitted in Hck. simpl in Hck. discriminate Hck.
Qed.

(** C10, amended: two invocations whose events have the same string and
    whose contexts have the same partition id make the same print call,
    whatever the environment and the world of each; every checkpoint
    call of an invocation carries its own event, so two completed
    invocations pass the same event exactly when they were given the same
    event. *)
Theorem on_event_deterministic
    (env1 env2 : Env) (pc1 pc2 : PartitionContext) (ev1 ev2 : Event)
    (w1 w2 : World) :
  event_str ev1 = event_str ev2 ->
  partition_id pc1 = partition_id pc2 ->
  prints_of (emitted w1 (on_event env1 pc1 ev1 w1).2)
    = prints_of (emitted w2 (on_event env2 pc2 ev2 w2).2) /\
  (forall c, c ∈ checkpoints_of (emitted w1 (on_event env1 pc1 ev1 w1).2) ->
             c = (pc1, ev1)) /\
  (forall c, c ∈ checkpoints_of (emitted w2 (on_event env2 pc2 ev2 w2).2) ->
             c = (pc2, ev2)) /\
  (forall w1' w2' : World,
     on_event env1 pc1 ev1 w1 = (Ok tt, w1') ->
     on_event env2 pc2 ev2 w2 = (Ok tt, w2') ->
     (checkpoints_of (emitted w1 w1') = checkpoints_of (emitted w2 w2')
      <-> ev1 = ev2)).
Proof.
  intros Hstr Hpid.
  assert (Hline : event_line pc1 ev1 = event_line pc2 ev2)
    by (unfold event_line; rewrite Hstr, Hpid; reflexivity).
  split; [|split; [apply on_event_checkpoint_own
                  | split; [apply on_event_checkpoint_own|]]].
  - rewrite !on_event_emitted, Hline.
    destruct (print_raises env1 w1 (event_line pc2 ev2)),
             (print_raises env2 w2 (event_line pc2 ev2)); reflexivity.
  - intros w1' w2' Hrun1 Hrun2.
    rewrite (on_event_ok_emitted _ _ _ _ _ Hrun1),
            (on_event_ok_emitted _ _ _ _ _ Hrun2).
    simpl. split.
    + intros Heq. injection Heq as _ Hev. exact Hev.
    + intros ->. destruct pc1, pc2. simpl in Hpid. rewrite Hpid. reflexivity.
Qed.

Lemma on_event_deterministic_witness :
  prints_of (emitted world0 (on_event (quiet_env no_stream) pc_zero E1 world0).2)
    = prints_of
        (emitted world0
           (on_event (broken_stdout_env three_events) pc_zero E1_again world0).2).
Proof.
  apply (on_event_deterministic (quiet_env no_stream) (broken_stdout_env three_events)
           pc_zero pc_zero E1 E1_again world0 world0);
    reflexivity.
Defined.

(* ===================================================================== *)
(** ** The coroutine [main] and the script *)

Section MainFacts.

Context (env : Env).

Lemma receive_handler_step (c : Client) (w : World) :
  handler_step (with_calls w (calls w ++ [CReceive c]))
               (receive env c (on_event env) w).2.
Proof.
  rewrite receive_run.
  pose proof (deliver_all_handler_step env (deliveries (stream env))
                (with_calls w (calls w ++ [CReceive c]))) as Hstep.
  destruct (deliver_all env (on_event env) (deliveries (stream env))
              (with_calls w (calls w ++ [CReceive c]))) as [[[]|e|] w1];
    simpl in Hstep; try exact Hstep.
  destruct (stream_end (stream env)); exact Hstep.
Qed.

Lemma prints_of_calls_of (ds : list (PartitionContext * Event)) :
  prints_of (calls_of ds) = lines_of ds.
Proof.
  induction ds as [|[pc ev] rest IH]; [reflexivity|].
  simpl. unfold prints_of in IH |- *. simpl. rewrite IH. reflexivity.
Qed.

Lemma checkpoints_of_calls_of (ds : list (PartitionContext * Event)) :
  checkpoints_of (calls_of ds) = ds.
Proof.
  induction ds as [|[pc ev] rest IH]; [reflexivity|].
  simpl. unfold checkpoints_of in IH |- *. simpl. rewrite IH. reflexivity.
Qed.

(** Calls on the client are neither prints nor checkpoints nor
    constructions. *)
Lemma handler_calls_no_construction (cs : list Call) :
  Forall (fun c => is_handler_call c = true \/ client_of c = Some the_client) cs ->
  constructions_of cs = [].
Proof.
  induction 1 as [|c cs Hc _ IH]; [reflexivity|].
  unfold constructions_of in IH |- *.
  destruct c; simpl; try exact IH.
  destruct Hc as [Hc|Hc]; discriminate Hc.
Qed.

(** When the client is built and entered and every invocation of the
    callback completes, [main] prints the lines of the deliveries in
    order, and the only call it can add after the loop is [__aexit__]. *)
Lemma main_all_delivered (w : World) :
  from_connection_string_raises env w = None ->
  aenter_raises env
    (with_calls w (calls w ++
       [CFromConnectionString CONNECTION_STRING "$Default" "spherelight"])) = None ->
  handlers_succeed env (deliveries (stream env)) (receiving w) = true ->
  stdout (main env w).2 = stdout w ++ lines_of (deliveries (stream env)) /\
  exists tail : list Call,
    (tail = [] \/ exists exc, tail = [CAexit the_client exc]) /\
    emitted w (main env w).2 =
      [CFromConnectionString CONNECTION_STRING "$Default" "spherelight";
       CAenter the_client; CReceive the_client]
      ++ calls_of (deliveries (stream env)) ++ tail.
Proof.
  intros Hnew Henter Hok.
  rewrite (main_run env w Hnew Henter), receive_run.
  destruct (deliver_all_succeed env _ _ Hok) as (w1 & Hloop & Hout & Hcalls).
  fold (receiving w). rewrite Hloop.
  assert (Hbase : calls w1 = calls w ++
            [CFromConnectionString CONNECTION_STRING "$Default" "spherelight";
             CAenter the_client; CReceive the_client]
            ++ calls_of (deliveries (stream env)) ++ []).
  { rewrite Hcalls, app_nil_r. simpl. rewrite <- !app_assoc. reflexivity. }
  assert (Hexit : forall exc, calls (after_aexit w1 exc) = calls w ++
            [CFromConnectionString CONNECTION_STRING "$Default" "spherelight";
             CAenter the_client; CReceive the_client]
            ++ calls_of (deliveries (stream env)) ++ [CAexit the_client exc]).
  { intros exc. simpl. rewrite Hcalls. simpl. rewrite <- !app_assoc. reflexivity. }
  destruct (stream_end (stream env)); try destruct (close_raises env w1); simpl;
    (split; [exact Hout|]);
    first [ exists []; split; [left; reflexivity | apply emitted_app; exact Hbase]
          | eexists; split; [right; eexists; reflexivity
                            | apply emitted_app; apply Hexit] ].
Qed.

(** Whatever the environment, the first call of [main] builds the client
    from the three constants, every later call is a callback call or a
    call on that client, and the ambient inputs are left alone. *)
Lemma main_shape (w : World) :
  exists rest : list Call,
    calls (main env w).2 =
      calls w ++ CFromConnectionString CONNECTION_STRING "$Default" "spherelight" :: rest /\
    Forall (fun c => is_handler_call c = true \/ client_of c = Some the_client) rest /\
    same_ambient w (main env w).2.
Proof.
  destruct (from_connection_string_raises env w) as [e|] eqn:Hnew.
  { exists []. unfold main, mbind, M_bind, from_connection_string. rewrite Hnew.
    repeat split. constructor. }
  destruct (aenter_raises env
              (with_calls w (calls w ++
                 [CFromConnectionString CONNECTION_STRING "$Default" "spherelight"])))
    as [e|] eqn:Henter.
  { exists [CAenter the_client].
    unfold main, mbind, M_bind, from_connection_string. rewrite Hnew.
    unfold async_with, client_aenter. simpl calls. rewrite Henter. simpl.
    rewrite <- app_assoc. split; [reflexivity|].
    split; [repeat constructor; right; reflexivity | repeat split]. }
  rewrite (main_run env w Hnew Henter).
  destruct (receive_handler_step the_client (acquired w))
    as (mid & Hcalls & Hmid & Ha & He & Hf).
  assert (Hmid' : Forall (fun c => is_handler_call c = true
                                   \/ client_of c = Some the_client) mid)
    by (eapply Forall_impl; [exact Hmid | intros c Hc; left; exact Hc]).
  assert (Hhead : Forall (fun c => is_handler_call c = true
                                   \/ client_of c = Some the_client)
                    ([CAenter the_client; CReceive the_client] ++ mid))
    by (apply Forall_app; split; [repeat constructor; right; reflexivity | exact Hmid']).
  destruct (receive env the_client (on_event env) (acquired w)) as [ro w2].
  simpl in Hcalls, Ha, He, Hf.
  assert (Hexit : forall exc, Forall (fun c => is_handler_call c = true
                                   \/ client_of c = Some the_client)
                    (([CAenter the_client; CReceive the_client] ++ mid)
                     ++ [CAexit the_client exc]))
    by (intros exc; apply Forall_app; split;
        [exact Hhead | repeat constructor; right; reflexivity]).
  destruct ro as [[]|e|]; try destruct (close_raises env w2); simpl;
    first [ exists ([CAenter the_client; CReceive the_client] ++ mid);
            split; [rewrite Hcalls; simpl; rewrite <- !app_assoc; reflexivity|];
            split; [exact Hhead | repeat split; assumption]
          | eexists; split;
            [rewrite Hcalls; simpl; rewrite <- !app_assoc; simpl; reflexivity|];
            split; [apply Hexit | repeat split; assumption] ].
Qed.

End MainFacts.

Lemma script_main_eq (env : Env) (w : World) :
  script_main env w = (exit_status (main env w).1, (main env w).2).
Proof.
  unfold script_main, run_until_complete. destruct (main env w); reflexivity.
Qed.

(** C4: once the client is built and entered, [receive] is called after
    both, only the callback makes calls while it runs, and when
    [receive] returns or raises [main] exits with [__aexit__] as its last
    call, told of the exception on that path; [main] fails to exit only
    when [receive] never ends. *)
Theorem main_releases_client
    (env : Env) (w : World) (ro : Outcome unit) (w2 : World) :
  from_connection_string_raises env w = None ->
  aenter_raises env
    (with_calls w (calls w ++
       [CFromConnectionString CONNECTION_STRING "$Default" "spherelight"])) = None ->
  receive env the_client (on_event env) (acquired w) = (ro, w2) ->
  exists mid : list Call,
    Forall (fun c => is_handler_call c = true) mid /\
    calls w2 = calls w ++
      [CFromConnectionString CONNECTION_STRING "$Default" "spherelight";
       CAenter the_client; CReceive the_client] ++ mid /\
    match ro with
    | Ok _ =>
        (main env w).1 <> Pending /\
        calls (main env w).2 = calls w2 ++ [CAexit the_client None]
    | Raise e =>
        (main env w).1 <> Pending /\
        calls (main env w).2 = calls w2 ++ [CAexit the_client (Some e)]
    | Pending => main env w = (Pending, w2)
    end.
Proof.
  intros Hnew Henter Hrecv.
  destruct (receive_handler_step env the_client (acquired w))
    as (mid & Hcalls & Hmid & _).
  rewrite Hrecv in Hcalls. simpl in Hcalls.
  exists mid. split; [exact Hmid|]. split.
  - rewrite Hcalls, <- !app_assoc. reflexivity.
  - rewrite (main_run env w Hnew Henter), Hrecv.
    destruct ro as [[]|e|]; [| |reflexivity];
      destruct (close_raises env w2); simpl; split;
      first [discriminate | reflexivity].
Qed.

Lemma main_releases_client_witness :
  ((main (quiet_env three_events) world0).1 = Ok tt /\
   last (calls (main (quiet_env three_events) world0).2)
     = Some (CAexit the_client None)) /\
  ((main (quiet_env refused_stream) world0).1 = Raise (PyExn "ConnectionError") /\
   last (calls (main (quiet_env refused_stream) world0).2)
     = Some (CAexit the_client (Some (PyExn "ConnectionError")))).
Proof.
  split.
  - destruct (main_releases_client (quiet_env three_events) world0 (Ok tt)
                (receive (quiet_env three_events) the_client
                   (on_event (quiet_env three_events)) (acquired world0)).2
                eq_refl eq_refl eq_refl)
      as (mid & _ & _ & _ & Hlast).
    split; [reflexivity|]. rewrite Hlast. apply last_snoc.
  - destruct (main_releases_client (quiet_env refused_stream) world0
                (Raise (PyExn "ConnectionError"))
                (receive (quiet_env refused_stream) the_client
                   (on_event (quiet_env refused_stream)) (acquired world0)).2
                eq_refl eq_refl eq_refl)
      as (mid & _ & _ & _ & Hlast).
    split; [reflexivity|]. rewrite Hlast. apply last_snoc.
Defined.

(** C5: when the stream fails before any delivery, the script prints no
    line and makes no print call, the interpreter exits with status 1,
    and, the client being built, entered and closed without a failure of
    their own, the exception [main] and [run_until_complete] let out is
    the one [receive] raised. *)
Theorem connection_error_before_any_event (env : Env) (w : World) (e : Exn) :
  deliveries (stream env) = [] ->
  stream_end (stream env) = StreamFails e ->
  stdout (script_main env w).2 = stdout w /\
  prints_of (emitted w (script_main env w).2) = [] /\
  (script_main env w).1 = Some 1%Z /\
  (from_connection_string_raises env w = None ->
   aenter_raises env
     (with_calls w (calls w ++
        [CFromConnectionString CONNECTION_STRING "$Default" "spherelight"])) = None ->
   close_raises env (receiving w) = None ->
   run_until_complete (main env) w = (Raise e, after_aexit (receiving w) (Some e))).
Proof.
  intros Hnone Hend. rewrite script_main_eq. unfold run_until_complete. simpl.
  destruct (from_connection_string_raises env w) as [e0|] eqn:Hnew.
  { unfold main, mbind, M_bind, from_connection_string. rewrite Hnew. simpl.
    repeat split; [|discriminate].
    rewrite (emitted_app w _ [CFromConnectionString CONNECTION_STRING
                                "$Default" "spherelight"]); reflexivity. }
  destruct (aenter_raises env
              (with_calls w (calls w ++
                 [CFromConnectionString CONNECTION_STRING "$Default" "spherelight"])))
    as [e0|] eqn:Henter.
  { unfold main, mbind, M_bind, from_connection_string. rewrite Hnew.
    unfold async_with, client_aenter. simpl calls. rewrite Henter. simpl.
    repeat split; [|discriminate].
    rewrite (emitted_app w _ [CFromConnectionString CONNECTION_STRING
                                "$Default" "spherelight"; CAenter the_client]);
      [reflexivity | simpl; rewrite <- app_assoc; reflexivity]. }
  rewrite (main_run env w Hnew Henter), receive_run, Hnone, Hend.
  fold (receiving w). simpl.
  assert (Hcalls : forall exc,
            calls (after_aexit (receiving w) exc) = calls w ++
              [CFromConnectionString CONNECTION_STRING "$Default" "spherelight";
               CAenter the_client; CReceive the_client; CAexit the_client exc])
    by (intros exc; simpl; rewrite <- !app_assoc; reflexivity).
  destruct (close_raises env (receiving w)) as [e'|]; simpl;
    (split; [reflexivity|]);
    (split; [rewrite (emitted_app _ _ _ (Hcalls (Some e))); reflexivity|]);
    (split; [reflexivity|]); intros _ _ Hclose;
    [discriminate Hclose | reflexivity].
Qed.

Lemma connection_error_before_any_event_witness :
  stdout (script_main (quiet_env refused_stream) world0).2 = [] /\
  prints_of (emitted world0 (script_main (quiet_env refused_stream) world0).2) = [] /\
  (script_main (quiet_env refused_stream) world0).1 = Some 1%Z /\
  run_until_complete (main (quiet_env refused_stream)) world0
    = (Raise (PyExn "ConnectionError"),
       after_aexit (receiving world0) (Some (PyExn "ConnectionError"))).
Proof.
  destruct (connection_error_before_any_event (quiet_env refused_stream) world0
              (PyExn "ConnectionError") eq_refl eq_refl)
    as (Hout & Hprints & Hstatus & Hexn).
  split; [exact Hout|]. split; [exact Hprints|]. split; [exact Hstatus|].
  apply Hexn; reflexivity.
Defined.

(** C6: for a stream that delivers three events in order on partition
    ["0"], every invocation of the callback completing, the program
    prints the three lines of the events in that order, each with
    partition id ["0"], and makes the three checkpoint calls in that
    order, and no other print or checkpoint call. *)
Theorem three_events_in_order
    (env : Env) (w : World) (pc : PartitionContext) (e1 e2 e3 : Event) :
  partition_id pc = "0" ->
  deliveries (stream env) = [(pc, e1); (pc, e2); (pc, e3)] ->
  from_connection_string_raises env w = None ->
  aenter_raises env
    (with_calls w (calls w ++
       [CFromConnectionString CONNECTION_STRING "$Default" "spherelight"])) = None ->
  handlers_succeed env [(pc, e1); (pc, e2); (pc, e3)] (receiving w) = true ->
  stdout (main env w).2 = stdout w ++
    [spec_line (event_str e1) "0"; spec_line (event_str e2) "0";
     spec_line (event_str e3) "0"] /\
  prints_of (emitted w (main env w).2) =
    [spec_line (event_str e1) "0"; spec_line (event_str e2) "0";
     spec_line (event_str e3) "0"] /\
  checkpoints_of (emitted w (main env w).2) = [(pc, e1); (pc, e2); (pc, e3)].
Proof.
  intros Hpid Hds Hnew Henter Hok. rewrite <- Hds in Hok.
  destruct (main_all_delivered env w Hnew Henter Hok) as (Hout & tail & Htail & Hem).
  rewrite Hds in Hout, Hem. unfold lines_of, event_line in Hout.
  simpl in Hout. rewrite Hpid in Hout.
  split; [exact Hout|]. rewrite Hem.
  destruct Htail as [->|[exc ->]]; simpl; unfold event_line; rewrite Hpid;
    split; reflexivity.
Qed.

Lemma three_events_in_order_witness :
  stdout (main (quiet_env three_events) world0).2 =
    [spec_line "first reading" "0"; spec_line "second reading" "0";
     spec_line "third reading" "0"] /\
  prints_of (emitted world0 (main (quiet_env three_events) world0).2) =
    [spec_line "first reading" "0"; spec_line "second reading" "0";
     spec_line "third reading" "0"] /\
  checkpoints_of (emitted world0 (main (quiet_env three_events) world0).2)
    = [(pc_zero, E1); (pc_zero, E2); (pc_zero, E3)].
Proof.
  apply (three_events_in_order (quiet_env three_events) world0 pc_zero E1 E2 E3);
    reflexivity.
Defined.

(** C7: in every run, whatever the arguments, the environment variables,
    the files and the behaviour of the outside, [main] builds the client
    exactly once, as its first call, from the inlined connection string,
    the consumer group ["$Default"] and the event hub name
    ["spherelight"]; every call it makes on a client is on the client
    built from these three values, and the ambient inputs are not
    touched. *)
Theorem main_configuration_fixed (env : Env) (w : World) :
  head (emitted w (main env w).2)
    = Some (CFromConnectionString CONNECTION_STRING "$Default" "spherelight") /\
  constructions_of (emitted w (main env w).2)
    = [(CONNECTION_STRING, "$Default", "spherelight")] /\
  (forall (c : Call) (cl : Client),
     c ∈ emitted w (main env w).2 -> client_of c = Some cl ->
     cl = mkClient CONNECTION_STRING "$Default" "spherelight") /\
  same_ambient w (main env w).2.
Proof.
  destruct (main_shape env w) as (rest & Hcalls & Hrest & Hamb).
  rewrite (emitted_app _ _ _ Hcalls).
  split; [reflexivity|]. split; [|split; [|exact Hamb]].
  - change (constructions_of
              (CFromConnectionString CONNECTION_STRING "$Default" "spherelight" :: rest))
      with ((CONNECTION_STRING, "$Default", "spherelight") :: constructions_of rest).
    rewrite (handler_calls_no_construction rest Hrest). reflexivity.
  - intros c cl Hin Hcl. apply elem_of_cons in Hin as [->|Hin]; [discriminate|].
    rewrite Forall_forall in Hrest. destruct (Hrest c Hin) as [Hh|Hc].
    + destruct c; discriminate.
    + rewrite Hc in Hcl. injection Hcl as <-. reflexivity.
Qed.

Lemma main_configuration_fixed_witness :
  constructions_of (emitted world0 (main (quiet_env three_events) world0).2)
    = constructions_of
        (emitted (mkWorld [] [] ∅ ["--hub"; "other"] {["EVENTHUB_NAME" := "other"]} ∅)
           (main (broken_stdout_env refused_stream)
              (mkWorld [] [] ∅ ["--hub"; "other"] {["EVENTHUB_NAME" := "other"]} ∅)).2) /\
  the_client = mkClient CONNECTION_STRING "$Default" "spherelight".
Proof.
  pose proof (main_configuration_fixed (quiet_env three_events) world0)
    as (_ & Hone & Hon & _).
  pose proof (main_configuration_fixed (broken_stdout_env refused_stream)
    (mkWorld [] [] ∅ ["--hub"; "other"] {["EVENTHUB_NAME" := "other"]} ∅))
    as (_ & Hother & _).
  split; [rewrite Hone, Hother; reflexivity|].
  apply (Hon (CReceive the_client) the_client); [|reflexivity].
  apply list_elem_of_In. vm_compute. tauto.
Defined.

(* ===================================================================== *)
(** ** Further properties of the callback *)

Lemma string_app_assoc (a b c : string) :
  (a +:+ b) +:+ c = a +:+ (b +:+ c).
Proof.
  induction a as [|x a IH]; [reflexivity|].
  change (String x ((a +:+ b) +:+ c) = String x (a +:+ (b +:+ c))).
  rewrite IH. reflexivity.
Qed.



(** X2: [on_event] adds no failure of its own.  Whatever the text of the
    event and the partition id, braces included, building the line does
    not raise: the callback always reaches the print call, it returns
    exactly when print and [update_checkpoint] both return, and an
    exception that leaves it is the one print raised or, print having
    returned, the one [update_checkpoint] raised. *)
Theorem on_event_raises_only_outside_failures
    (env : Env) (pc : PartitionContext) (ev : Event) (w : World) :
  head (emitted w (on_event env pc ev w).2) = Some (CPrint (event_line pc ev)) /\
  (on_event env pc ev w).1 <> Pending /\
  ((on_event env pc ev w).1 = Ok tt <->
     print_raises env w (event_line pc ev) = None /\
     update_checkpoint_raises env (after_print w pc ev) pc ev = None) /\
  (forall e : Exn,
     (on_event env pc ev w).1 = Raise e ->
     print_raises env w (event_line pc ev) = Some e \/
     (print_raises env w (event_line pc ev) = None /\
      update_checkpoint_raises env (after_print w pc ev) pc ev = Some e)).
Proof.
  rewrite on_event_emitted, on_event_run.
  destruct (print_raises env w (event_line pc ev)) as [e1|];
    [|destruct (update_checkpoint_raises env (after_print w pc ev) pc ev) as [e2|]];
    simpl; (split; [reflexivity|]); (split; [discriminate|]); split;
    try (split; [discriminate | intros [H1 H2]; discriminate]);
    try (split; [auto | reflexivity]);
    intros e He; try discriminate;
    injection He as <-; auto.
Qed.

Lemma on_event_raises_only_outside_failures_witness :
  print_raises (broken_stdout_env no_stream) world0
      (event_line pc_zero (mkEvent 7 "{}{"))
    = Some (PyExn "BrokenPipeError") \/
  (print_raises (broken_stdout_env no_stream) world0
      (event_line pc_zero (mkEvent 7 "{}{")) = None /\
   update_checkpoint_raises (broken_stdout_env no_stream)
      (after_print world0 pc_zero (mkEvent 7 "{}{")) pc_zero (mkEvent 7 "{}{")
    = Some (PyExn "BrokenPipeError")).
Proof.
  destruct (on_event_raises_only_outside_failures (broken_stdout_env no_stream)
              pc_zero (mkEvent 7 "{}{") world0) as (_ & _ & _ & Hraise).
  apply Hraise. reflexivity.
Defined.

(** X3: the two fields are put into the line as they are, with no
    escaping, so the line does not tell where the event text ends: an
    event whose text ends in the separator followed by [b], on partition
    [c], is printed as the same line as the event [a] on a partition
    whose id is [b], the separator and [c]. *)
Theorem event_line_not_escaped
    (env1 env2 : Env) (w1 w2 : World) (id1 id2 : N) (a b c : string) :
  prints_of
    (emitted w1
       (on_event env1 (mkPartitionContext c)
          (mkEvent id1 (a +:+ FIELD_SEPARATOR +:+ b)) w1).2)
  = prints_of
      (emitted w2
         (on_event env2 (mkPartitionContext (b +:+ FIELD_SEPARATOR +:+ c))
            (mkEvent id2 a) w2).2).
Proof.
  rewrite !on_event_emitted.
  assert (Hline :
    event_line (mkPartitionContext c) (mkEvent id1 (a +:+ FIELD_SEPARATOR +:+ b))
    = event_line (mkPartitionContext (b +:+ FIELD_SEPARATOR +:+ c)) (mkEvent id2 a)).
  { unfold event_line, spec_line, event_str, partition_id.
    fold FIELD_SEPARATOR.
    change (dquote +:+ " from the partition with ID: " +:+ dquote +:+ c +:+ dquote)
      with (FIELD_SEPARATOR +:+ c +:+ dquote).
    change (dquote +:+ " from the partition with ID: " +:+ dquote
            +:+ (b +:+ FIELD_SEPARATOR +:+ c) +:+ dquote)
      with (FIELD_SEPARATOR +:+ (b +:+ FIELD_SEPARATOR +:+ c) +:+ dquote).
    rewrite !string_app_assoc. reflexivity. }
  rewrite Hline.
  destruct (print_raises env1 w1 _), (print_raises env2 w2 _); reflexivity.
Qed.

(* ===================================================================== *)
(** ** Traces of whole runs *)

Lemma prints_of_app (a b : list Call) :
  prints_of (a ++ b) = prints_of a ++ prints_of b.
Proof. apply omap_app. Qed.

Lemma checkpoints_of_app (a b : list Call) :
  checkpoints_of (a ++ b) = checkpoints_of a ++ checkpoints_of b.
Proof. apply omap_app. Qed.

(** One invocation, whatever its outcome, is one step. *)
Lemma on_event_step (env : Env) (pc : PartitionContext) (ev : Event) (w : World) :
  exists s : Step,
    calls (on_event env pc ev w).2 = calls w ++ step_calls (pc, ev, s) /\
    stdout (on_event env pc ev w).2 = stdout w ++ step_lines (pc, ev, s).
Proof.
  rewrite on_event_run.
  destruct (print_raises env w (event_line pc ev)).
  - exists PrintFailed. simpl. rewrite app_nil_r. auto.
  - destruct (update_checkpoint_raises env (after_print w pc ev) pc ev).
    + exists CheckpointFailed. auto.
    + exists Completed. auto.
Qed.

(** The loop, whatever fails: the invocations it made are those of an
    initial segment of the deliveries, in order, one step each. *)
Lemma deliver_all_trace (env : Env) (ds : list (PartitionContext * Event)) :
  forall w : World,
  exists ss : list (PartitionContext * Event * Step),
    map fst ss `prefix_of` ds /\
    calls (deliver_all env (on_event env) ds w).2
      = calls w ++ flat_map step_calls ss /\
    stdout (deliver_all env (on_event env) ds w).2
      = stdout w ++ flat_map step_lines ss.
Proof.
  induction ds as [|[pc ev] rest IH]; intros w.
  - exists []. simpl. rewrite !app_nil_r. split; [apply prefix_nil | auto].
  - simpl deliver_all.
    destruct (on_event_step env pc ev w) as (s & Hc & Ho).
    assert (Hstop : exists ss : list (PartitionContext * Event * Step),
              map fst ss `prefix_of` (pc, ev) :: rest /\
              calls (on_event env pc ev w).2 = calls w ++ flat_map step_calls ss /\
              stdout (on_event env pc ev w).2 = stdout w ++ flat_map step_lines ss).
    { exists [(pc, ev, s)]. simpl. rewrite !app_nil_r.
      split; [apply prefix_cons, prefix_nil | auto]. }
    assert (Hgo : exists ss : list (PartitionContext * Event * Step),
              map fst ss `prefix_of` (pc, ev) :: rest /\
              calls (deliver_all env (on_event env) rest (on_event env pc ev w).2).2
                = calls w ++ flat_map step_calls ss /\
              stdout (deliver_all env (on_event env) rest (on_event env pc ev w).2).2
                = stdout w ++ flat_map step_lines ss).
    { destruct (IH (on_event env pc ev w).2) as (ss & Hpre & Hcs & Hos).
      exists ((pc, ev, s) :: ss). simpl.
      split; [apply prefix_cons; exact Hpre|].
      rewrite Hcs, Hos, Hc, Ho, <- !app_assoc. auto. }
    destruct (on_event env pc ev w) as [[[]|e|] w1]; simpl in Hstop, Hgo.
    + exact Hgo.
    + destruct (handler_errors_fatal env); [exact Hstop | exact Hgo].
    + exact Hstop.
Qed.

Lemma prints_of_steps (ss : list (PartitionContext * Event * Step)) :
  prints_of (flat_map step_calls ss) = lines_of (map fst ss).
Proof.
  induction ss as [|[[pc ev] s] ss IH]; [reflexivity|].
  simpl. rewrite prints_of_app, IH. destruct s; reflexivity.
Qed.

Lemma checkpoints_of_steps (ss : list (PartitionContext * Event * Step)) :
  checkpoints_of (flat_map step_calls ss) `sublist_of` map fst ss.
Proof.
  induction ss as [|[[pc ev] s] ss IH]; [constructor|].
  simpl. rewrite checkpoints_of_app. destruct s; simpl.
  - apply sublist_cons. exact IH.
  - apply sublist_skip. exact IH.
  - apply sublist_skip. exact IH.
Qed.

Lemma step_lines_sublist (ss : list (PartitionContext * Event * Step)) :
  flat_map step_lines ss `sublist_of` lines_of (map fst ss).
Proof.
  induction ss as [|[[pc ev] s] ss IH]; [constructor|].
  simpl. destruct s; simpl.
  - apply sublist_cons. exact IH.
  - apply sublist_skip. exact IH.
  - apply sublist_skip. exact IH.
Qed.

Lemma ptc_app (a b : list Call) :
  print_then_checkpoint a -> print_then_checkpoint b ->
  print_then_checkpoint (a ++ b).
Proof.
  intros Ha Hb. induction Ha; simpl.
  - exact Hb.
  - apply ptc_other; assumption.
  - apply ptc_pair. assumption.
Qed.

Lemma ptc_steps (ss : list (PartitionContext * Event * Step)) :
  print_then_checkpoint (flat_map step_calls ss).
Proof.
  induction ss as [|[[pc ev] s] ss IH]; [constructor|].
  simpl. destruct s; simpl.
  - apply ptc_other; [discriminate | exact IH].
  - apply ptc_pair. exact IH.
  - apply ptc_pair. exact IH.
Qed.

(** In such a log, what stands right before a checkpoint call is the
    print call for the same delivery. *)
Lemma ptc_split (cs : list Call) :
  print_then_checkpoint cs ->
  forall pre post pc ev,
    cs = pre ++ CUpdateCheckpoint pc ev :: post ->
    exists pre', pre = pre' ++ [CPrint (event_line pc ev)].
Proof.
  induction 1 as [|c cs Hc _ IH|pc0 ev0 cs _ IH]; intros pre post pc ev Heq.
  - destruct pre; discriminate Heq.
  - destruct pre as [|c' pre].
    + simpl in Heq. injection Heq as -> _. destruct (Hc pc ev eq_refl).
    + simpl in Heq. injection Heq as <- Hcs.
      destruct (IH _ _ _ _ Hcs) as [pre' ->]. exists (c :: pre'). reflexivity.
  - destruct pre as [|c1 [|c2 pre]]; simpl in Heq.
    + discriminate Heq.
    + injection Heq as <- Hpc Hev _. subst. exists []. reflexivity.
    + injection Heq as <- <- Hcs.
      destruct (IH _ _ _ _ Hcs) as [pre' ->].
      exists (CPrint (event_line pc0 ev0) :: CUpdateCheckpoint pc0 ev0 :: pre').
      reflexivity.
Qed.

(** The log of a whole run of [main]: a head of client calls, the steps
    of the loop, and at most the [__aexit__] call. *)
Lemma main_trace (env : Env) (w : World) :
  exists (head : list Call) (ss : list (PartitionContext * Event * Step))
         (tail : list Call),
    emitted w (main env w).2 = head ++ flat_map step_calls ss ++ tail /\
    stdout (main env w).2 = stdout w ++ flat_map step_lines ss /\
    map fst ss `prefix_of` deliveries (stream env) /\
    ((head = [CFromConnectionString CONNECTION_STRING "$Default" "spherelight"]
      /\ ss = [] /\ tail = []) \/
     (head = [CFromConnectionString CONNECTION_STRING "$Default" "spherelight";
              CAenter the_client]
      /\ ss = [] /\ tail = []) \/
     (head = [CFromConnectionString CONNECTION_STRING "$Default" "spherelight";
              CAenter the_client; CReceive the_client]
      /\ (tail = [] \/ exists exc, tail = [CAexit the_client exc]))).
Proof.
  destruct (from_connection_string_raises env w) as [e|] eqn:Hnew.
  { exists [CFromConnectionString CONNECTION_STRING "$Default" "spherelight"], [], [].
    unfold main, mbind, M_bind, from_connection_string. rewrite Hnew. simpl.
    split; [apply emitted_app; reflexivity|].
    split; [rewrite app_nil_r; reflexivity|].
    split; [apply prefix_nil | left; auto]. }
  destruct (aenter_raises env
              (with_calls w (calls w ++
                 [CFromConnectionString CONNECTION_STRING "$Default" "spherelight"])))
    as [e|] eqn:Henter.
  { exists [CFromConnectionString CONNECTION_STRING "$Default" "spherelight";
            CAenter the_client], [], [].
    unfold main, mbind, M_bind, from_connection_string. rewrite Hnew.
    unfold async_with, client_aenter. simpl calls. rewrite Henter. simpl.
    split; [apply emitted_app; simpl; rewrite <- app_assoc; reflexivity|].
    split; [rewrite app_nil_r; reflexivity|].
    split; [apply prefix_nil | right; left; auto]. }
  destruct (deliver_all_trace env (deliveries (stream env)) (receiving w))
    as (ss & Hpre & Hcs & Hos).
  exists [CFromConnectionString CONNECTION_STRING "$Default" "spherelight";
          CAenter the_client; CReceive the_client], ss.
  rewrite (main_run env w Hnew Henter), receive_run. fold (receiving w).
  assert (Hbase : calls (deliver_all env (on_event env) (deliveries (stream env))
                           (receiving w)).2
                  = calls w ++
                    [CFromConnectionString CONNECTION_STRING "$Default" "spherelight";
                     CAenter the_client; CReceive the_client]
                    ++ flat_map step_calls ss ++ [])
    by (rewrite Hcs, app_nil_r; simpl; rewrite <- !app_assoc; reflexivity).
  assert (Hexit : forall exc,
            calls (after_aexit (deliver_all env (on_event env) (deliveries (stream env))
                                  (receiving w)).2 exc)
            = calls w ++
              [CFromConnectionString CONNECTION_STRING "$Default" "spherelight";
               CAenter the_client; CReceive the_client]
              ++ flat_map step_calls ss ++ [CAexit the_client exc])
    by (intros exc; simpl; rewrite Hcs; simpl; rewrite <- !app_assoc; reflexivity).
  simpl in Hos.
  destruct (deliver_all env (on_event env) (deliveries (stream env)) (receiving w))
    as [[[]|e|] w1]; simpl in Hbase, Hexit, Hos;
    try destruct (stream_end (stream env));
    try destruct (close_raises env w1); simpl;
    first [ exists []; split; [apply emitted_app; exact Hbase|];
            split; [exact Hos|]; split; [exact Hpre|];
            right; right; split; [reflexivity | left; reflexivity]
          | eexists; split; [apply emitted_app; apply Hexit|];
            split; [exact Hos|]; split; [exact Hpre|];
            right; right; split; [reflexivity | right; eexists; reflexivity] ].
Qed.

(** X4: in every run of [main], whatever fails along the way, a
    checkpoint call is never made without the print call for the same
    event and partition standing right before it in the log. *)
Theorem checkpoint_only_right_after_its_print
    (env : Env) (w : World) (pre post : list Call)
    (pc : PartitionContext) (ev : Event) :
  emitted w (main env w).2 = pre ++ CUpdateCheckpoint pc ev :: post ->
  exists pre' : list Call, pre = pre' ++ [CPrint (event_line pc ev)].
Proof.
  destruct (main_trace env w) as (head & ss & tail & Hem & _ & _ & Hshape).
  rewrite Hem. apply ptc_split.
  assert (Hhead : print_then_checkpoint head)
    by (destruct Hshape as [(-> & _)|[(-> & _)|(-> & _)]];
        repeat (apply ptc_other; [discriminate|]); constructor).
  assert (Htail : print_then_checkpoint tail)
    by (destruct Hshape as [(_ & _ & ->)|[(_ & _ & ->)|(_ & [->|[exc ->]])]];
        repeat (apply ptc_other; [discriminate|]); constructor).
  apply ptc_app; [exact Hhead|]. apply ptc_app; [apply ptc_steps | exact Htail].
Qed.

Lemma checkpoint_only_right_after_its_print_witness :
  exists pre' : list Call,
    [CFromConnectionString CONNECTION_STRING "$Default" "spherelight";
     CAenter the_client; CReceive the_client;
     CPrint (event_line pc_zero E1); CUpdateCheckpoint pc_zero E1;
     CPrint (event_line pc_zero E2)]
    = pre' ++ [CPrint (event_line pc_zero E2)].
Proof.
  apply (checkpoint_only_right_after_its_print (quiet_env three_events) world0
           [CFromConnectionString CONNECTION_STRING "$Default" "spherelight";
            CAenter the_client; CReceive the_client;
            CPrint (event_line pc_zero E1); CUpdateCheckpoint pc_zero E1;
            CPrint (event_line pc_zero E2)]
           [CPrint (event_line pc_zero E3); CUpdateCheckpoint pc_zero E3;
            CAexit the_client None]
           pc_zero E2).
  reflexivity.
Defined.

(** X5: in every run of [main], whatever fails along the way, the print
    calls are exactly the lines of an initial segment of the deliveries
    of the stream, in their order; the checkpoint calls are a
    subsequence of that segment and the lines that reach standard output
    a subsequence of its lines.  Nothing is printed or checkpointed out
    of order, more often than it was delivered, or without having been
    delivered. *)
Theorem run_follows_delivery_order (env : Env) (w : World) :
  exists reached : list (PartitionContext * Event),
    reached `prefix_of` deliveries (stream env) /\
    prints_of (emitted w (main env w).2) = lines_of reached /\
    checkpoints_of (emitted w (main env w).2) `sublist_of` reached /\
    exists out : list string,
      stdout (main env w).2 = stdout w ++ out /\
      out `sublist_of` lines_of reached.
Proof.
  destruct (main_trace env w) as (head & ss & tail & Hem & Hout & Hpre & Hshape).
  exists (map fst ss). split; [exact Hpre|].
  assert (Hhead : prints_of head = [] /\ checkpoints_of head = [])
    by (destruct Hshape as [(-> & _)|[(-> & _)|(-> & _)]]; split; reflexivity).
  assert (Htail : prints_of tail = [] /\ checkpoints_of tail = [])
    by (destruct Hshape as [(_ & _ & ->)|[(_ & _ & ->)|(_ & [->|[exc ->]])]];
        split; reflexivity).
  destruct Hhead as [Hhp Hhc], Htail as [Htp Htc].
  rewrite Hem, !prints_of_app, !checkpoints_of_app, Hhp, Hhc, Htp, Htc.
  simpl. rewrite !app_nil_r.
  split; [apply prints_of_steps|]. split; [apply checkpoints_of_steps|].
  exists (flat_map step_lines ss). split; [exact Hout | apply step_lines_sublist].
Qed.

(** X6: when the client cannot be built, [main] raises that exception
    having made no other call; when the client is built and
    [__aenter__] raises, [main] raises that exception and neither
    [receive] nor [__aexit__] is called. *)
Theorem main_acquisition_failure (env : Env) (w : World) (e : Exn) :
  (from_connection_string_raises env w = Some e ->
   (main env w).1 = Raise e /\
   emitted w (main env w).2
     = [CFromConnectionString CONNECTION_STRING "$Default" "spherelight"]) /\
  (from_connection_string_raises env w = None ->
   aenter_raises env
     (with_calls w (calls w ++
        [CFromConnectionString CONNECTION_STRING "$Default" "spherelight"])) = Some e ->
   (main env w).1 = Raise e /\
   emitted w (main env w).2
     = [CFromConnectionString CONNECTION_STRING "$Default" "spherelight";
        CAenter the_client] /\
   receive_calls_of (emitted w (main env w).2) = [] /\
   aexit_calls_of (emitted w (main env w).2) = []).
Proof.
  split.
  - intros Hnew. unfold main, mbind, M_bind, from_connection_string.
    rewrite Hnew. simpl. split; [reflexivity | apply emitted_app; reflexivity].
  - intros Hnew Henter.
    assert (Hrun : main env w =
              (Raise e, with_calls w (calls w ++
                 [CFromConnectionString CONNECTION_STRING "$Default" "spherelight";
                  CAenter the_client]))).
    { unfold main, mbind, M_bind, from_connection_string. rewrite Hnew.
      unfold async_with, client_aenter. simpl calls. rewrite Henter.
      unfold with_calls. simpl. rewrite <- app_assoc. reflexivity. }
    rewrite Hrun. simpl.
    assert (Hem : emitted w (with_calls w (calls w ++
                 [CFromConnectionString CONNECTION_STRING "$Default" "spherelight";
                  CAenter the_client]))
              = [CFromConnectionString CONNECTION_STRING "$Default" "spherelight";
                 CAenter the_client])
      by (apply emitted_app; reflexivity).
    rewrite Hem. repeat split.
Qed.

Lemma main_acquisition_failure_witness :
  ((main (failing_construction_env three_events) world0).1
     = Raise (PyExn "ValueError") /\
   emitted world0 (main (failing_construction_env three_events) world0).2
     = [CFromConnectionString CONNECTION_STRING "$Default" "spherelight"]) /\
  ((main (failing_aenter_env three_events) world0).1 = Raise (PyExn "ConnectError") /\
   aexit_calls_of (emitted world0 (main (failing_aenter_env three_events) world0).2)
     = []).
Proof.
  split.
  - apply (main_acquisition_failure (failing_construction_env three_events) world0
             (PyExn "ValueError")).
    reflexivity.
  - destruct (proj2 (main_acquisition_failure (failing_aenter_env three_events)
                       world0 (PyExn "ConnectError")) eq_refl eq_refl)
      as (Hexn & _ & _ & Hexit).
    split; [exact Hexn | exact Hexit].
Defined.

(** X7: when [receive] has returned or raised and closing the client
    raises, the exception that leaves [main] is the one of the close,
    also when [receive] had raised another one; [__aexit__] was still
    called, last. *)
Theorem main_close_failure_replaces
    (env : Env) (w : World) (ro : Outcome unit) (w2 : World) (e' : Exn) :
  from_connection_string_raises env w = None ->
  aenter_raises env
    (with_calls w (calls w ++
       [CFromConnectionString CONNECTION_STRING "$Default" "spherelight"])) = None ->
  receive env the_client (on_event env) (acquired w) = (ro, w2) ->
  ro <> Pending ->
  close_raises env w2 = Some e' ->
  (main env w).1 = Raise e' /\
  calls (main env w).2 = calls w2 ++ [CAexit the_client (exc_of ro)].
Proof.
  intros Hnew Henter Hrecv Hends Hclose.
  rewrite (main_run env w Hnew Henter), Hrecv.
  destruct ro as [[]|e|]; [| |contradiction];
    rewrite Hclose; split; reflexivity.
Qed.

Lemma main_close_failure_replaces_witness :
  (main (failing_close_env refused_stream) world0).1 = Raise (PyExn "CloseError") /\
  last (calls (main (failing_close_env refused_stream) world0).2)
    = Some (CAexit the_client (Some (PyExn "ConnectionError"))).
Proof.
  destruct (main_close_failure_replaces (failing_close_env refused_stream) world0
              (Raise (PyExn "ConnectionError"))
              (receive (failing_close_env refused_stream) the_client
                 (on_event (failing_close_env refused_stream)) (acquired world0)).2
              (PyExn "CloseError") eq_refl eq_refl eq_refl)
    as [Hexn Hcalls]; [discriminate | reflexivity |].
  split; [exact Hexn|]. rewrite Hcalls. apply last_snoc.
Defined.



Section StrictClient.

Context (env : Env).


(** When every invocation completes, the store is the old one with the
    deliveries written into it in order. *)
Lemma deliver_all_succeed_store (ds : list (PartitionContext * Event)) :
  forall w : World,
    handlers_succeed env ds w = true ->
    checkpoints (deliver_all env (on_event env) ds w).2
      = store_after ds (checkpoints w).
Proof.
  induction ds as [|[pc ev] rest IH]; intros w Hok.
  - reflexivity.
  - simpl in Hok |- *.
    destruct (on_event env pc ev w) as [[[]|e|] w1] eqn:Hrun; try discriminate.
    apply on_event_ok_world in Hrun. subst w1.
    rewrite (IH _ Hok). reflexivity.
Qed.

(** The calls of a run in which every invocation completes. *)
Lemma main_all_delivered_calls (w : World) :
  from_connection_string_raises env w = None ->
  aenter_raises env
    (with_calls w (calls w ++
       [CFromConnectionString CONNECTION_STRING "$Default" "spherelight"])) = None ->
  handlers_succeed env (deliveries (stream env)) (receiving w) = true ->
  prints_of (emitted w (main env w).2) = lines_of (deliveries (stream env)) /\
  checkpoints_of (emitted w (main env w).2) = deliveries (stream env).
Proof.
  intros Hnew Henter Hok.
  destruct (main_all_delivered env w Hnew Henter Hok) as (_ & tail & Htail & Hem).
  rewrite Hem, !prints_of_app, !checkpoints_of_app,
          prints_of_calls_of, checkpoints_of_calls_of.
  destruct Htail as [->|[exc ->]]; simpl; rewrite !app_nil_r; auto.
Qed.

(** The checkpoint store is touched by the loop only. *)
Lemma main_store (w : World) :
  from_connection_string_raises env w = None ->
  aenter_raises env
    (with_calls w (calls w ++
       [CFromConnectionString CONNECTION_STRING "$Default" "spherelight"])) = None ->
  checkpoints (main env w).2
    = checkpoints (deliver_all env (on_event env) (deliveries (stream env))
                     (receiving w)).2.
Proof.
  intros Hnew Henter.
  rewrite (main_run env w Hnew Henter), receive_run. fold (receiving w).
  destruct (deliver_all env (on_event env) (deliveries (stream env)) (receiving w))
    as [[[]|e|] w1];
    try destruct (stream_end (stream env));
    try destruct (close_raises env w1); reflexivity.
Qed.

End StrictClient.

Lemma store_after_lookup (pid : string) (ds : list (PartitionContext * Event)) :
  forall ck : gmap string Event,
    store_after ds ck !! pid =
      match last_delivered pid ds with
      | Some ev => Some ev
      | None => ck !! pid
      end.
Proof.
  unfold store_after, last_delivered.
  induction ds as [|[pc ev] rest IH]; intros ck; [reflexivity|].
  simpl foldl. rewrite IH. simpl.
  destruct (decide (partition_id pc = pid)) as [Heq|Hne].
  - rewrite last_cons. subst pid. rewrite lookup_insert_eq.
    destruct (last _); reflexivity.
  - rewrite lookup_insert_ne by exact Hne. reflexivity.
Qed.



(** X10: for any stream, on any number of partitions, when the client
    is built and entered and every invocation of the callback
    completes, the run prints the lines of all the deliveries in the
    order of the stream, these lines are what standard output gains,
    and the checkpoint calls are the deliveries themselves, in that
    order. *)
Theorem all_deliveries_in_order (env : Env) (w : World) :
  from_connection_string_raises env w = None ->
  aenter_raises env
    (with_calls w (calls w ++
       [CFromConnectionString CONNECTION_STRING "$Default" "spherelight"])) = None ->
  handlers_succeed env (deliveries (stream env)) (receiving w) = true ->
  stdout (main env w).2 = stdout w ++ lines_of (deliveries (stream env)) /\
  prints_of (emitted w (main env w).2) = lines_of (deliveries (stream env)) /\
  checkpoints_of (emitted w (main env w).2) = deliveries (stream env).
Proof.
  intros Hnew Henter Hok. split.
  - exact (proj1 (main_all_delivered env w Hnew Henter Hok)).
  - exact (main_all_delivered_calls env w Hnew Henter Hok).
Qed.

Lemma all_deliveries_in_order_witness :
  stdout (main (quiet_env two_partitions) world0).2
    = [spec_line "first reading" "0"; spec_line "second reading" "1";
       spec_line "third reading" "0"] /\
  prints_of (emitted world0 (main (quiet_env two_partitions) world0).2)
    = [spec_line "first reading" "0"; spec_line "second reading" "1";
       spec_line "third reading" "0"] /\
  checkpoints_of (emitted world0 (main (quiet_env two_partitions) world0).2)
    = [(pc_zero, E1); (pc_one, E2); (pc_zero, E3)].
Proof.
  apply (all_deliveries_in_order (quiet_env two_partitions) world0); reflexivity.
Defined.

(** X11: after a run in which the client is built and entered and every
    invocation of the callback completes, the checkpoint of each
    partition is the last event the stream delivered on it, and a
    partition on which nothing was delivered keeps the checkpoint it
    had. *)
Theorem checkpoint_is_last_delivery (env : Env) (w : World) (pid : string) :
  from_connection_string_raises env w = None ->
  aenter_raises env
    (with_calls w (calls w ++
       [CFromConnectionString CONNECTION_STRING "$Default" "spherelight"])) = None ->
  handlers_succeed env (deliveries (stream env)) (receiving w) = true ->
  checkpoints (main env w).2 !! pid =
    match last_delivered pid (deliveries (stream env)) with
    | Some ev => Some ev
    | None => checkpoints w !! pid
    end.
Proof.
  intros Hnew Henter Hok.
  rewrite (main_store env w Hnew Henter),
          (deliver_all_succeed_store env _ _ Hok).
  apply store_after_lookup.
Qed.

Lemma checkpoint_is_last_delivery_witness :
  checkpoints (main (quiet_env two_partitions) world0).2 !! "0" = Some E3 /\
  checkpoints (main (quiet_env two_partitions) world0).2 !! "1" = Some E2 /\
  checkpoints (main (quiet_env two_partitions) world0).2 !! "2" = None.
Proof.
  split; [|split].
  - rewrite (checkpoint_is_last_delivery (quiet_env two_partitions) world0 "0");
      reflexivity.
  - rewrite (checkpoint_is_last_delivery (quiet_env two_partitions) world0 "1");
      reflexivity.
  - rewrite (checkpoint_is_last_delivery (quiet_env two_partitions) world0 "2");
      reflexivity.
Defined.
